(** * Worker-local lazy model cache of the sentiment notebook

  The notebook [sentiment.ipynb] keeps one spaCy model per language in a
  class-level dictionary, [SpacyMagic._spacys], filled on first use by the
  class method [SpacyMagic.get]; the user-defined function
  [split_sentences_impl] fetches its model through it.  This file embeds
  that code and proves the properties its specification states. *)

From stdpp Require Import gmap strings list.

(** ** The spaCy library, as the notebook sees it

  Python objects are represented by references: two values of type [model]
  are equal exactly when they are the same object. *)
Class Spacy := {
(** objects returned by [spacy.load] *)
model : Type;
(** exceptions raised inside the library *)
failure : Type;
(** whatever state the library and the interpreter keep besides
    [SpacyMagic._spacys] *)
runtime : Type;
(** the construction routine: the statements [import spacy] and
    [spacy.load(lang)] of [get], which either yield a model or raise *)
spacy_load : string → runtime → runtime * (failure + model);
(** [[str(sentence) for sentence in english(s).sents]] *)
sents : model → string → runtime → runtime * (failure + list string);
}.

Section Process.
Context `{lib : Spacy}.

(** Exceptions a caller of the notebook's functions can observe. *)
Inductive exn :=
  | KeyError (k : string)
  | Raised (e : failure).

(** One invocation of the construction routine and how it ended. *)
Definition load_event : Type := string * (failure + model).

(** The state of one Python process: the class attribute [_spacys], the
    library's own state, and the history of construction calls (a ghost
    field, only appended to). *)
Record World := mkWorld {
  _spacys : gmap string model;
  rt : runtime;
  loads : list load_event;
}.

(** [_spacys = {}] at class definition, nothing loaded yet. *)
Definition fresh (r : runtime) : World :=
  {| _spacys := ∅; rt := r; loads := [] |}.

(** Python computations: the state survives a raised exception. *)
Definition Py (A : Type) : Type := World → World * (exn + A).

Definition ret {A} (a : A) : Py A := λ w, (w, inr a).

Definition bind {A B} (c : Py A) (k : A → Py B) : Py B :=
  λ w, match c w with
       | (w', inr a) => k a w'
       | (w', inl e) => (w', inl e)
       end.

(** [lang in cls._spacys] *)
Definition contains (lang : string) : Py bool :=
  λ w, (w, inr (bool_decide (lang ∈ dom (_spacys w)))).

(** [spacy.load(lang)] *)
Definition load (lang : string) : Py model :=
  λ w, let '(r', res) := spacy_load lang (rt w) in
       ({| _spacys := _spacys w; rt := r'; loads := loads w ++ [(lang, res)] |},
        match res with
        | inr m => inr m
        | inl e => inl (Raised e)
        end).

(** [cls._spacys[lang] = m] *)
Definition setitem (lang : string) (m : model) : Py unit :=
  λ w, ({| _spacys := <[lang := m]> (_spacys w); rt := rt w; loads := loads w |},
        inr ()).

(** [cls._spacys[lang]] *)
Definition getitem (lang : string) : Py model :=
  λ w, match _spacys w !! lang with
       | Some m => (w, inr m)
       | None => (w, inl (KeyError lang))
       end.

(** The library applied to a loaded model. *)
Definition call_sents (english : model) (s : string) : Py (list string) :=
  λ w, let '(r', res) := sents english s (rt w) in
       ({| _spacys := _spacys w; rt := r'; loads := loads w |},
        match res with
        | inr l => inr l
        | inl e => inl (Raised e)
        end).
End Process.

Arguments exn {_}.
Arguments World {_}.
Arguments Py {_} _.

(** [Py] is a monad; stdpp's [x ← c; k] and [c ;; k] are its bind. *)
#[export] Instance Py_ret `{lib : Spacy} : MRet Py := @ret _.
#[export] Instance Py_bind `{lib : Spacy} : MBind Py := λ A B k c, bind c k.

Module SpacyMagic.
Section SpacyMagic.
Context `{lib : Spacy}.
(** [[
    @classmethod
    def get(cls, lang):
        if lang not in cls._spacys:
            import spacy
            cls._spacys[lang] = spacy.load(lang)
        return cls._spacys[lang]
    ]] *)
Definition get (lang : string) : Py model :=
  present ← contains lang;
  (if negb present then
     m ← load lang;
     setitem lang m
   else mret ());;
  getitem lang.
End SpacyMagic.
End SpacyMagic.

Section Notebook.
Context `{lib : Spacy}.

(** [[
    def split_sentences_impl(s):
        english = SpacyMagic.get("en")
        return [str(sentence) for sentence in english(s).sents]
    ]] *)
Definition split_sentences_impl (s : string) : Py (list string) :=
  english ← SpacyMagic.get "en";
  call_sents english s.

(** A process that calls [get] on the keys [ks] in turn, the caller catching
    whatever is raised; each key is paired with the outcome of its call. *)
Fixpoint run_gets (ks : list string) (w : World)
  : World * list (string * (exn + model)) :=
  match ks with
  | [] => (w, [])
  | k :: ks' =>
      let '(w1, r) := SpacyMagic.get k w in
      let '(w2, rs) := run_gets ks' w1 in
      (w2, (k, r) :: rs)
  end.

(** The same for [split_sentences_impl] on the texts [ss]. *)
Fixpoint run_splits (ss : list string) (w : World)
  : World * list (exn + list string) :=
  match ss with
  | [] => (w, [])
  | s :: ss' =>
      let '(w1, r) := split_sentences_impl s w in
      let '(w2, rs) := run_splits ss' w1 in
      (w2, r :: rs)
  end.

(** Keys whose call returned a model. *)
Definition succeeded (rs : list (string * (exn + model))) : gset string :=
  list_to_set
    (omap (λ kr, match kr.2 with inr _ => Some kr.1 | inl _ => None end) rs).

(** Constructions of [lang] that were started, and those that yielded a
    model. *)
Definition invocations (lang : string) (evs : list load_event) : nat :=
  length (filter (λ ev, ev.1 = lang) evs).

Definition is_built (ev : load_event) : bool :=
  match ev.2 with inr _ => true | inl _ => false end.

Definition constructions (evs : list load_event) : nat :=
  length (filter (λ ev, is_built ev = true) evs).

(** A process in which only the English model was ever asked for: no other
    key is cached, no construction was started for another key, and a model
    was built at most once, and only if it is now cached. *)
Definition only_english (w : World) : Prop :=
  dom (_spacys w) ⊆ {["en"]} ∧
  Forall (λ ev, ev.1 = "en") (loads w) ∧
  constructions (loads w) =
    (if bool_decide ("en" ∈ dom (_spacys w)) then 1 else 0).

(** The history of a process whose cache holds at most the English model:
    constructions that raised, followed, once the model is cached, by the
    one construction that built it. *)
Definition built_last (w : World) : Prop :=
  ∃ fails : list load_event,
    Forall (λ ev, is_built ev = false) fails ∧
    loads w = fails ++ match _spacys w !! "en" with
                       | Some english => [("en", inr english)]
                       | None => []
                       end.
End Notebook.

(** ** Threads

    [get] takes no lock.  A thread inside [get] is at one of its statements;
    the interpreter may switch threads between any two of them. *)
Section Threads.
Context `{lib : Spacy}.

Inductive pc :=
  | AtCheck                     (* [if lang not in cls._spacys:] *)
  | AtLoad                      (* [import spacy; spacy.load(lang)] *)
  | AtStore (m : model)         (* [cls._spacys[lang] = <loaded>] *)
  | AtReturn                    (* [return cls._spacys[lang]] *)
  | Done (r : exn + model).     (* returned or raised *)

(** One statement of [get lang] by a thread at [p]. *)
Definition step (lang : string) (p : pc) (w : World) : World * pc :=
  match p with
  | AtCheck =>
      match contains lang w with
      | (w', inr present) => (w', if negb present then AtLoad else AtReturn)
      | (w', inl e) => (w', Done (inl e))
      end
  | AtLoad =>
      match load lang w with
      | (w', inr m) => (w', AtStore m)
      | (w', inl e) => (w', Done (inl e))
      end
  | AtStore m =>
      match setitem lang m w with
      | (w', inr _) => (w', AtReturn)
      | (w', inl e) => (w', Done (inl e))
      end
  | AtReturn =>
      match getitem lang w with
      | (w', r) => (w', Done r)
      end
  | Done r => (w, Done r)
  end.

(** The threads of a process are listed each with the key it called [get]
    on.  Thread [i] runs one statement. *)
Definition sched_step (i : nat) (c : World * list (string * pc))
  : World * list (string * pc) :=
  match c.2 !! i with
  | Some (lang, p) =>
      let '(w', p') := step lang p c.1 in
      (w', <[i := (lang, p')]> c.2)
  | None => c
  end.

(** A schedule names the thread that runs at each turn. *)
Definition run_sched (sch : list nat) (c : World * list (string * pc))
  : World * list (string * pc) :=
  foldl (λ c i, sched_step i c) c sch.

(** [n] threads entering [get lang] together. *)
Definition entering (n : nat) (lang : string) : list (string * pc) :=
  replicate n (lang, AtCheck).

(** The schedule under which the calls of threads [0 .. n-1] do not
    overlap: each runs its four statements before the next starts. *)
Definition serial (n : nat) : list nat :=
  flat_map (λ i, replicate 4 i) (seq 0 n).

(** A thread running [fuel] statements in a row, undisturbed. *)
Fixpoint run_thread (fuel : nat) (lang : string) (p : pc) (w : World)
  : World * pc :=
  match fuel with
  | 0 => (w, p)
  | S fuel' =>
      let '(w', p') := step lang p w in
      run_thread fuel' lang p' w'
  end.

(** What a finished thread handed to its caller. *)
Definition returned (t : string * pc) : option model :=
  match t.2 with
  | Done (inr m) => Some m
  | _ => None
  end.

(** The instance a thread holds, or has returned, came out of a finished
    construction for the thread's key. *)
Definition holds_built (evs : list load_event) (t : string * pc) : Prop :=
  match t.2 with
  | AtStore m | Done (inr m) => (t.1, inr m) ∈ evs
  | _ => True
  end.

(** Soundness of a process for the key [k], all of whose threads called
    [get k]: an instance cached under [k], held by a thread about to store
    it, or already returned, came out of a finished construction for [k]. *)
Definition sound_for (k : string) (c : World * list (string * pc)) : Prop :=
  (∀ m, _spacys c.1 !! k = Some m → (k, inr m) ∈ loads c.1) ∧
  Forall (λ t, t.1 = k ∧ holds_built (loads c.1) t) c.2.

(** What the specification asks of an execution that started in [w0] and
    ended in [c]: a single construction took place, and one instance went to
    every caller. *)
Definition constructs_once (w0 : World) (c : World * list (string * pc))
  : Prop :=
  length (loads c.1) = S (length (loads w0)) ∧
  ∃ m, Forall (λ t, returned t = Some m) c.2.
End Threads.

Arguments pc {_}.

(** ** A counting construction routine

    Every call of the routine increments a counter; for the languages
    installed it returns a new marker object carrying the key it was built
    from, for any other it raises. *)
Record marker := mk_marker {
  serial_no : nat;
  tag : string;
}.

Inductive load_error :=
  | OSError (lang : string).

Definition installed (lang : string) : bool :=
  bool_decide (lang ∈ ["en"; "fr"]).

Definition counting_load (lang : string) (counter : nat)
  : nat * (load_error + marker) :=
  (S counter,
   if installed lang then inr {| serial_no := counter; tag := lang |}
   else inl (OSError lang)).

Definition counting : Spacy := {|
  model := marker;
  failure := load_error;
  runtime := nat;
  spacy_load := counting_load;
  sents := λ _ s counter, (counter, inr [s]);
|}.

(** ** More of the notebook: histories, warm processes, racing threads *)

Section More.
Context `{lib : Spacy}.

(** The constructions for [lang] that yielded a model, oldest first. *)
Definition built_for (lang : string) (evs : list load_event) : list load_event :=
  filter (λ ev, ev.1 = lang ∧ is_built ev = true) evs.

(** The library applied to one model on the texts [ss] in turn, nothing
    else happening in between. *)
Fixpoint run_sents (english : model) (ss : list string) (w : World)
  : World * list (exn + list string) :=
  match ss with
  | [] => (w, [])
  | s :: ss' =>
      let '(w1, r) := call_sents english s w in
      let '(w2, rs) := run_sents english ss' w1 in
      (w2, r :: rs)
  end.

(** Threads that have not yet passed the call of [spacy.load]. *)
Definition yet_to_load (t : string * pc) : bool :=
  match t.2 with
  | AtCheck | AtLoad => true
  | _ => false
  end.

(** Where a thread can be when [get] found its key cached with [m]. *)
Definition on_hit_path (m : model) (t : string * pc) : Prop :=
  t.2 = AtCheck ∨ t.2 = AtReturn ∨ t.2 = Done (inr m).
End More.

(** A library with no model installed: every construction raises. *)
Definition bare : Spacy := {|
  model := marker;
  failure := load_error;
  runtime := nat;
  spacy_load := λ lang counter, (S counter, inl (OSError lang));
  sents := λ _ s counter, (counter, inr [s]);
|}.

(** ** The VADER scorer

    [[
    sentiment_fields = "pos neg neu compound".split()
    sentiment_structure = StructType([StructField(fn, FloatType(), True) for fn in sentiment_fields])

    analyzer_bcast = spark.sparkContext.broadcast(analyzer)

    def vader_impl(s):
        va = analyzer_bcast.value
        result = va.polarity_scores(s)
        return [result[key] for key in sentiment_fields]
    ]] *)

(** The analyzer, as the notebook sees it: [polarity_scores] hands back a
    dictionary of scores or raises. *)
Class Vader := {
  score : Type;
  vader_failure : Type;
  analyzer : Type;
  polarity_scores :
    string → analyzer → analyzer * (vader_failure + gmap string score);
}.

(** [str.split()] without arguments: the runs of non-whitespace characters,
    for the whitespace of ASCII. *)
Definition is_space (c : Ascii.ascii) : bool :=
  let n := Ascii.nat_of_ascii c in
  (n =? 32) || ((9 <=? n) && (n <=? 13)) || ((28 <=? n) && (n <=? 31)).

Fixpoint split_from (word : string) (s : string) : list string :=
  match s with
  | EmptyString => if decide (word = "") then [] else [word]
  | String c s' =>
      if is_space c then
        if decide (word = "") then split_from "" s'
        else word :: split_from "" s'
      else split_from (word +:+ String c "") s'
  end.

Definition str_split (s : string) : list string := split_from "" s.

Definition sentiment_fields : list string :=
  str_split "pos neg neu compound".

(** Spark's schema types, as far as the notebook builds them. *)
Inductive DataType :=
  | StringType
  | FloatType.

Record StructField := mkStructField {
  name : string;
  dataType : DataType;
  nullable : bool;
}.

Definition sentiment_structure : list StructField :=
  (λ fn, mkStructField fn FloatType true) <$> sentiment_fields.

Section VaderImpl.
Context `{va_lib : Vader}.

Inductive vader_exn :=
  | FieldKeyError (key : string)
  | ScorerRaised (e : vader_failure).

(** [[result[key] for key in keys]]: the subscripts are evaluated in order
    and the first missing key raises. *)
Fixpoint subscripts (result : gmap string score) (keys : list string)
  : vader_exn + list score :=
  match keys with
  | [] => inr []
  | key :: keys' =>
      match result !! key with
      | None => inl (FieldKeyError key)
      | Some v =>
          match subscripts result keys' with
          | inr vs => inr (v :: vs)
          | inl e => inl e
          end
      end
  end.

(** [va] is the analyzer that the first statement, [analyzer_bcast.value],
    has read from the broadcast variable. *)
Definition vader_impl (s : string) (va : analyzer)
  : analyzer * (vader_exn + list score) :=
  let '(va', r) := polarity_scores s va in
  match r with
  | inr result => (va', subscripts result sentiment_fields)
  | inl e => (va', inl (ScorerRaised e))
  end.
End VaderImpl.

Arguments vader_exn {_}.

(** An analyzer with canned answers: the scores of the texts in [answers],
    a [TypeError] for any other text. *)
Inductive canned_error :=
  | TypeError.

Definition canned (answers : gmap string (gmap string Z)) : Vader := {|
  score := Z;
  vader_failure := canned_error;
  analyzer := unit;
  polarity_scores := λ s va,
    (va, match answers !! s with
         | Some result => inr result
         | None => inl TypeError
         end);
|}.

(** * Properties *)

Section Get.
Context `{lib : Spacy}.
Implicit Types (w : World) (k lang : string) (m : model).

(** ** How one call of [get] runs *)

Lemma get_hit w k m :
  _spacys w !! k = Some m → SpacyMagic.get k w = (w, inr m).
Proof.
  intros Hk. unfold SpacyMagic.get, mbind, Py_bind, bind, contains, getitem.
  rewrite bool_decide_eq_true_2 by (apply elem_of_dom; eauto).
  simpl. by rewrite Hk.
Qed.

Lemma get_miss_ok w k r' m :
  _spacys w !! k = None →
  spacy_load k (rt w) = (r', inr m) →
  SpacyMagic.get k w =
    ({| _spacys := <[k := m]> (_spacys w); rt := r';
        loads := loads w ++ [(k, inr m)] |}, inr m).
Proof.
  intros Hk Hl. unfold SpacyMagic.get, mbind, Py_bind, bind, contains, getitem.
  rewrite bool_decide_eq_false_2 by (by rewrite not_elem_of_dom).
  simpl. unfold load, setitem. rewrite Hl. simpl.
  by rewrite lookup_insert_eq.
Qed.

Lemma get_miss_raise w k r' e :
  _spacys w !! k = None →
  spacy_load k (rt w) = (r', inl e) →
  SpacyMagic.get k w =
    ({| _spacys := _spacys w; rt := r';
        loads := loads w ++ [(k, inl e)] |}, inl (Raised e)).
Proof.
  intros Hk Hl. unfold SpacyMagic.get, mbind, Py_bind, bind, contains, getitem.
  rewrite bool_decide_eq_false_2 by (by rewrite not_elem_of_dom).
  simpl. unfold load. by rewrite Hl.
Qed.

(** The three ways a call of [get] can go. *)
Lemma get_cases w k :
  (∃ m, _spacys w !! k = Some m ∧ SpacyMagic.get k w = (w, inr m)) ∨
  (∃ r' m, _spacys w !! k = None ∧ spacy_load k (rt w) = (r', inr m) ∧
     SpacyMagic.get k w =
       ({| _spacys := <[k := m]> (_spacys w); rt := r';
           loads := loads w ++ [(k, inr m)] |}, inr m)) ∨
  (∃ r' e, _spacys w !! k = None ∧ spacy_load k (rt w) = (r', inl e) ∧
     SpacyMagic.get k w =
       ({| _spacys := _spacys w; rt := r';
           loads := loads w ++ [(k, inl e)] |}, inl (Raised e))).
Proof.
  destruct (_spacys w !! k) as [m|] eqn:Hk.
  - left. exists m. split; [done | by apply get_hit].
  - right. destruct (spacy_load k (rt w)) as [r' [e|m]] eqn:Hl.
    + right. exists r', e. split_and!; [done.. | by apply get_miss_raise].
    + left. exists r', m. split_and!; [done.. | by apply get_miss_ok].
Qed.

(** [get] never raises [KeyError]: the final subscript finds its key. *)
Lemma get_no_KeyError w k k' : (SpacyMagic.get k w).2 ≠ inl (KeyError k').
Proof.
  destruct (get_cases w k)
    as [(m & _ & ->)|[(r' & m & _ & _ & ->)|(r' & e & _ & _ & ->)]];
    simpl; congruence.
Qed.

(** A call that returns leaves what it returned under its key. *)
Lemma get_returns_cached w k m :
  (SpacyMagic.get k w).2 = inr m → _spacys (SpacyMagic.get k w).1 !! k = Some m.
Proof.
  destruct (get_cases w k)
    as [(m' & Hk & ->)|[(r' & m' & _ & _ & ->)|(r' & e & _ & _ & ->)]];
    simpl; intros ?; simplify_eq; [done | by rewrite lookup_insert_eq].
Qed.

(** An entry survives every call, whatever its key. *)
Lemma get_keeps_entry w k k' m :
  _spacys w !! k = Some m → _spacys (SpacyMagic.get k' w).1 !! k = Some m.
Proof.
  intros Hk.
  destruct (get_cases w k')
    as [(m' & _ & ->)|[(r' & m' & Hk' & _ & ->)|(r' & e & _ & _ & ->)]];
    simpl; [done | | done].
  rewrite lookup_insert_ne; [done | congruence].
Qed.

(** A call touches no entry but its own. *)
Lemma get_frame w k k' :
  k ≠ k' → _spacys (SpacyMagic.get k w).1 !! k' = _spacys w !! k'.
Proof.
  intros Hne.
  destruct (get_cases w k)
    as [(m' & _ & ->)|[(r' & m' & _ & _ & ->)|(r' & e & _ & _ & ->)]];
    simpl; [done | by rewrite lookup_insert_ne | done].
Qed.

(** A call for [k'] starts no construction for another key. *)
Lemma get_invocations_ne w k k' :
  k ≠ k' →
  invocations k (loads (SpacyMagic.get k' w).1) = invocations k (loads w).
Proof.
  intros Hne. unfold invocations.
  destruct (get_cases w k')
    as [(m' & _ & ->)|[(r' & m' & _ & _ & ->)|(r' & e & _ & _ & ->)]];
    simpl; [done | |].
  all: rewrite filter_app, length_app, filter_cons_False by (simpl; congruence).
  all: apply Nat.add_0_r.
Qed.

(** A miss starts exactly one construction, for its own key. *)
Lemma get_miss_invocations w k :
  _spacys w !! k = None →
  invocations k (loads (SpacyMagic.get k w).1) = S (invocations k (loads w)) ∧
  length (loads (SpacyMagic.get k w).1) = S (length (loads w)).
Proof.
  intros Hk. unfold invocations.
  destruct (get_cases w k)
    as [(m' & ? & ->)|[(r' & m' & _ & _ & ->)|(r' & e & _ & _ & ->)]];
    simpl; [congruence | |].
  all: rewrite filter_app, !length_app, filter_cons_True by done.
  all: split; apply Nat.add_1_r.
Qed.

(** On a miss the routine is started on the state the library is in. *)
Lemma get_miss_loads w k :
  _spacys w !! k = None →
  loads (SpacyMagic.get k w).1 = loads w ++ [(k, (spacy_load k (rt w)).2)].
Proof.
  intros Hk.
  destruct (get_cases w k)
    as [(m & Hc & _)|[(r2 & m & _ & Hl2 & ->)|(r2 & e2 & _ & Hl2 & ->)]];
    [congruence | by rewrite Hl2..].
Qed.


(** ** Sequences of calls *)

Lemma run_gets_cons k ks w :
  run_gets (k :: ks) w =
    ((run_gets ks (SpacyMagic.get k w).1).1,
     (k, (SpacyMagic.get k w).2) :: (run_gets ks (SpacyMagic.get k w).1).2).
Proof.
  simpl. destruct (SpacyMagic.get k w) as [w1 r]. simpl.
  by destruct (run_gets ks w1).
Qed.

(** Once [k] is cached, no sequence of calls changes its entry, starts a
    construction for it, or returns anything else for it. *)
Lemma run_gets_cached ks : ∀ w k m,
  _spacys w !! k = Some m →
  _spacys (run_gets ks w).1 !! k = Some m ∧
  invocations k (loads (run_gets ks w).1) = invocations k (loads w) ∧
  ∀ r, (k, r) ∈ (run_gets ks w).2 → r = inr m.
Proof.
  induction ks as [|k' ks IH]; intros w k m Hk.
  - simpl. split_and!; [done.. | intros r Hr; by apply elem_of_nil in Hr].
  - rewrite run_gets_cons. simpl.
    destruct (IH (SpacyMagic.get k' w).1 k m) as (IH1 & IH2 & IH3);
      [by apply get_keeps_entry |].
    split_and!; [done | |].
    + rewrite IH2. destruct (decide (k = k')) as [<-|Hne].
      * by rewrite (get_hit w k m).
      * by apply get_invocations_ne.
    + intros r Hr. apply elem_of_cons in Hr as [Heq|Hr]; [|by apply IH3].
      injection Heq as <- ->. by rewrite (get_hit w k m).
Qed.

(** Calls for other keys leave [k] absent and start no construction for it. *)
Lemma run_gets_untouched ks : ∀ w k,
  k ∉ ks →
  _spacys (run_gets ks w).1 !! k = _spacys w !! k ∧
  invocations k (loads (run_gets ks w).1) = invocations k (loads w).
Proof.
  induction ks as [|k' ks IH]; intros w k Hk; [done|].
  apply not_elem_of_cons in Hk as [Hne Hk].
  rewrite run_gets_cons. simpl.
  destruct (IH (SpacyMagic.get k' w).1 k Hk) as [-> ->].
  split; [by apply get_frame | by apply get_invocations_ne].
Qed.
End Get.

(** ** The domain of the cache *)

Section Domain.
Context `{lib : Spacy}.
Implicit Types (w : World) (k : string).

Lemma succeeded_cons k (r : exn + model) rs :
  succeeded ((k, r) :: rs) =
    match r with inr _ => {[k]} | inl _ => ∅ end ∪ succeeded rs.
Proof.
  unfold succeeded. destruct r as [e|m]; simpl; [|done].
  by rewrite (left_id_L ∅ (∪)).
Qed.

(** One call adds its key to the domain when it returns, nothing when it
    raises. *)
Lemma get_dom w k :
  dom (_spacys (SpacyMagic.get k w).1) =
    dom (_spacys w) ∪
    match (SpacyMagic.get k w).2 with inr _ => {[k]} | inl _ => ∅ end.
Proof.
  destruct (get_cases w k)
    as [(m & Hc & ->)|[(r2 & m & _ & _ & ->)|(r2 & e2 & _ & _ & ->)]]; simpl.
  - apply elem_of_dom_2, singleton_subseteq_l in Hc.
    by rewrite (comm_L (∪)), (subseteq_union_1_L _ _ Hc).
  - by rewrite dom_insert_L, (comm_L (∪)).
  - by rewrite (right_id_L ∅ (∪)).
Qed.

Lemma run_gets_dom ks : ∀ w,
  dom (_spacys (run_gets ks w).1) = dom (_spacys w) ∪ succeeded (run_gets ks w).2.
Proof.
  induction ks as [|k ks IH]; intros w.
  - simpl. unfold succeeded. simpl. by rewrite (right_id_L ∅ (∪)).
  - rewrite run_gets_cons. simpl.
    by rewrite IH, get_dom, succeeded_cons, (assoc_L (∪)).
Qed.
End Domain.

(** ** The sentence splitter *)

Section Splitter.
Context `{lib : Spacy}.
Implicit Types (w : World) (s : string).

Lemma constructions_snoc (evs : list load_event) ev :
  constructions (evs ++ [ev]) =
    constructions evs + (if is_built ev then 1 else 0).
Proof.
  unfold constructions. rewrite filter_app, length_app. f_equal.
  destruct (is_built ev) eqn:Hb.
  - by rewrite filter_cons_True.
  - rewrite filter_cons_False; [done | congruence].
Qed.

Lemma split_sentences_impl_unfold s w :
  split_sentences_impl s w =
    match (SpacyMagic.get "en" w).2 with
    | inr english => call_sents english s (SpacyMagic.get "en" w).1
    | inl e => ((SpacyMagic.get "en" w).1, inl e)
    end.
Proof.
  unfold split_sentences_impl, mbind, Py_bind, bind.
  by destruct (SpacyMagic.get "en" w) as [w' [e|m]].
Qed.

(** Using a model touches neither the cache nor the construction history. *)
Lemma call_sents_frame (english : model) s w :
  _spacys (call_sents english s w).1 = _spacys w ∧
  loads (call_sents english s w).1 = loads w.
Proof. unfold call_sents. by destruct (sents english s (rt w)). Qed.

Lemma get_en_only_english w :
  only_english w → only_english (SpacyMagic.get "en" w).1.
Proof.
  intros (Hdom & Hev & Hn). unfold only_english.
  destruct (get_cases w "en")
    as [(m & Hc & ->)|[(r2 & m & Hc & _ & ->)|(r2 & e2 & Hc & _ & ->)]]; simpl.
  - done.
  - apply not_elem_of_dom in Hc.
    rewrite bool_decide_eq_false_2 in Hn by done.
    rewrite dom_insert_L, constructions_snoc, Hn. simpl.
    rewrite bool_decide_eq_true_2 by set_solver.
    split_and!; [by apply union_least | | done].
    apply Forall_app; split; [done | by apply Forall_singleton].
  - rewrite constructions_snoc, Hn. simpl.
    split_and!; [done | | lia].
    apply Forall_app; split; [done | by apply Forall_singleton].
Qed.

Lemma split_only_english s w :
  only_english w → only_english (split_sentences_impl s w).1.
Proof.
  intros Hw%get_en_only_english. rewrite split_sentences_impl_unfold.
  destruct ((SpacyMagic.get "en" w).2) as [e|english]; [done|].
  unfold only_english in *.
  by destruct (call_sents_frame english s (SpacyMagic.get "en" w).1) as [-> ->].
Qed.

Lemma run_splits_only_english ss : ∀ w,
  only_english w → only_english (run_splits ss w).1.
Proof.
  induction ss as [|s ss IH]; intros w Hw; [done|].
  simpl. pose proof (split_only_english s w Hw) as Hw1.
  destruct (split_sentences_impl s w) as [w1 r].
  specialize (IH w1 Hw1). by destruct (run_splits ss w1).
Qed.
Lemma fresh_only_english (r : runtime) : only_english (fresh r).
Proof.
  unfold only_english. simpl. rewrite dom_empty_L.
  split_and!; [done | by apply Forall_nil |].
  by rewrite bool_decide_eq_false_2 by apply not_elem_of_empty.
Qed.

(** A construction that yields the model is the last one of the process. *)
Lemma get_en_built_last w :
  built_last w → built_last (SpacyMagic.get "en" w).1.
Proof.
  intros (fails & Hfails & Hl). unfold built_last.
  destruct (get_cases w "en")
    as [(m & Hc & ->)|[(r2 & m & Hc & _ & ->)|(r2 & e2 & Hc & _ & ->)]]; simpl.
  - by exists fails.
  - rewrite Hc, app_nil_r in Hl. exists fails.
    by rewrite lookup_insert_eq, Hl.
  - rewrite Hc, app_nil_r in Hl. exists (fails ++ [("en", inl e2)]).
    rewrite Hc, app_nil_r, Hl. split; [|done].
    apply Forall_app; split; [done | by apply Forall_singleton].
Qed.

Lemma split_built_last s w :
  built_last w → built_last (split_sentences_impl s w).1.
Proof.
  intros Hw%get_en_built_last. rewrite split_sentences_impl_unfold.
  destruct ((SpacyMagic.get "en" w).2) as [e|english]; [done|].
  unfold built_last in *.
  by destruct (call_sents_frame english s (SpacyMagic.get "en" w).1) as [-> ->].
Qed.

Lemma run_splits_built_last ss : ∀ w,
  built_last w → built_last (run_splits ss w).1.
Proof.
  induction ss as [|s ss IH]; intros w Hw; [done|].
  simpl. pose proof (split_built_last s w Hw) as Hw1.
  destruct (split_sentences_impl s w) as [w1 r].
  specialize (IH w1 Hw1). by destruct (run_splits ss w1).
Qed.
End Splitter.

(** ** Threads inside [get] *)

Section Racing.
Context `{lib : Spacy}.
Implicit Types (w : World) (k lang : string) (pl : list (string * pc)) (p : pc).

(** A thread left alone for its four statements does what [get] does. *)
Lemma run_thread_get lang w :
  run_thread 4 lang AtCheck w =
    ((SpacyMagic.get lang w).1, Done (SpacyMagic.get lang w).2).
Proof.
  unfold SpacyMagic.get, mbind, Py_bind, bind. simpl.
  unfold contains. simpl.
  destruct (bool_decide (lang ∈ dom (_spacys w))); simpl.
  - by destruct (getitem lang w).
  - destruct (load lang w) as [w1 [e|m]]; simpl; [done|].
    by destruct (getitem lang _).
Qed.

Lemma run_sched_app sch1 sch2 (c : World * list (string * pc)) :
  run_sched (sch1 ++ sch2) c = run_sched sch2 (run_sched sch1 c).
Proof. apply foldl_app. Qed.

Lemma run_sched_cons i sch (c : World * list (string * pc)) :
  run_sched (i :: sch) c = run_sched sch (sched_step i c).
Proof. done. Qed.

Lemma sched_step_at i w pl lang p :
  pl !! i = Some (lang, p) →
  sched_step i (w, pl) =
    ((step lang p w).1, <[i := (lang, (step lang p w).2)]> pl).
Proof.
  intros Hi. unfold sched_step. cbn [fst snd]. rewrite Hi.
  by destruct (step lang p w).
Qed.

Lemma run_thread_S fuel lang p w :
  run_thread (S fuel) lang p w =
    run_thread fuel lang (step lang p w).2 (step lang p w).1.
Proof. simpl. by destruct (step lang p w). Qed.

(** Scheduling one thread several times in a row runs it undisturbed. *)
Lemma run_sched_replicate fuel : ∀ i w pl lang p,
  pl !! i = Some (lang, p) →
  run_sched (replicate fuel i) (w, pl) =
    ((run_thread fuel lang p w).1, <[i := (lang, (run_thread fuel lang p w).2)]> pl).
Proof.
  induction fuel as [|fuel IH]; intros i w pl lang p Hi.
  - cbn [run_thread fst snd]. by rewrite list_insert_id.
  - cbn [replicate]. rewrite run_sched_cons, (sched_step_at i w pl lang p Hi).
    rewrite run_thread_S, (IH i _ _ lang (step lang p w).2).
    + by rewrite list_insert_insert_eq.
    + apply list_lookup_insert_eq. by eapply lookup_lt_Some.
Qed.

(** Once [k] is cached, threads that call [get k] one after the other all
    return the cached instance and change nothing. *)
Lemma serial_hits b : ∀ a w k m,
  _spacys w !! k = Some m →
  run_sched (flat_map (λ i, replicate 4 i) (seq a b))
    (w, replicate a (k, Done (inr m)) ++ replicate b (k, AtCheck)) =
  (w, replicate (a + b) (k, Done (inr m))).
Proof.
  induction b as [|b IH]; intros a w k m Hk.
  - simpl. by rewrite app_nil_r, Nat.add_0_r.
  - cbn [seq flat_map]. rewrite run_sched_app.
    rewrite (run_sched_replicate 4 a w _ k AtCheck).
    2:{ rewrite lookup_app_r by (by rewrite length_replicate).
        by rewrite length_replicate, Nat.sub_diag. }
    rewrite run_thread_get, (get_hit w k m Hk). simpl.
    rewrite insert_app_r_alt by (by rewrite length_replicate).
    rewrite length_replicate, Nat.sub_diag. simpl.
    rewrite cons_middle, app_assoc, <- replicate_S_end.
    etrans; [exact (IH (S a) w k m Hk) |]. do 2 f_equal. lia.
Qed.

(** Threads entering [get k] one after the other on an uncached key whose
    construction succeeds: the first builds, the others reuse. *)
Lemma serial_miss n w k r' m :
  _spacys w !! k = None →
  spacy_load k (rt w) = (r', inr m) →
  run_sched (serial (S n)) (w, entering (S n) k) =
    ({| _spacys := <[k := m]> (_spacys w); rt := r';
        loads := loads w ++ [(k, inr m)] |},
     replicate (S n) (k, Done (inr m))).
Proof.
  intros Hk Hl. unfold serial, entering. cbn [seq flat_map].
  rewrite run_sched_app.
  rewrite (run_sched_replicate 4 0 w _ k AtCheck) by done.
  rewrite run_thread_get, (get_miss_ok w k r' m Hk Hl).
  cbn [fst snd replicate]. cbn [insert list_insert].
  apply (serial_hits n 1 _ k m). apply lookup_insert_eq.
Qed.

(** ** Any schedule *)

Lemma holds_built_mono evs ev (t : string * pc) :
  holds_built evs t → holds_built (evs ++ [ev]) t.
Proof.
  unfold holds_built. destruct t.2 as [| |m| |[e|m]]; try done.
  all: intros Hin; apply elem_of_app; by left.
Qed.

Lemma sound_for_step k i (c : World * list (string * pc)) :
  sound_for k c → sound_for k (sched_step i c).
Proof.
  destruct c as [w pl]. intros [Hcache Hpl]. cbn [fst snd] in *.
  destruct (pl !! i) as [[lang p]|] eqn:Hi;
    [| unfold sched_step; cbn [fst snd]; by rewrite Hi].
  rewrite (sched_step_at i w pl lang p Hi).
  destruct (Forall_lookup_1 _ _ _ _ Hpl Hi) as [Hlang Hp].
  cbn [fst snd] in Hlang. subst lang. unfold holds_built in Hp. cbn [fst snd] in Hp.
  destruct p as [| |m| |r]; cbn [step].
  - (* the membership test *)
    unfold contains. cbn [fst snd]. split; [done|].
    apply Forall_insert; [done|]. split; [done|].
    unfold holds_built. cbn [snd]. by destruct (negb _).
  - (* the construction *)
    unfold load. destruct (spacy_load k (rt w)) as [r' [e|m]]; cbn [fst snd].
    all: split; [intros m' Hm'; apply elem_of_app; left; by apply Hcache |].
    all: apply Forall_insert;
      [eapply Forall_impl; [exact Hpl |];
       intros t [? ?]; split; [done | by apply holds_built_mono] |].
    all: split; [done|]; unfold holds_built; cbn [fst snd].
    + done.
    + apply elem_of_app; right. by apply list_elem_of_singleton.
  - (* the store *)
    unfold setitem. cbn [fst snd]. split.
    + intros m'. simpl. rewrite lookup_insert_eq. by intros [= <-].
    + apply Forall_insert; [done|]. by split.
  - (* the final subscript *)
    unfold getitem. destruct (_spacys w !! k) as [m|] eqn:Hk; cbn [fst snd].
    all: split; [intros m' Hm'; apply Hcache; rewrite <- Hk; exact Hm' |].
    all: apply Forall_insert; [done|]; split; [done|].
    all: unfold holds_built; cbn [fst snd].
    + by apply Hcache.
    + done.
  - (* already back in the caller *)
    cbn [fst snd]. split; [done|]. apply Forall_insert; [done|]. by split.
Qed.

Lemma sound_for_run k sch : ∀ c : World * list (string * pc),
  sound_for k c → sound_for k (run_sched sch c).
Proof.
  induction sch as [|i sch IH]; intros c Hc; [done|].
  rewrite run_sched_cons. by apply IH, sound_for_step.
Qed.

Lemma sound_for_entering k n w :
  _spacys w !! k = None → sound_for k (w, entering n k).
Proof.
  intros Hk. split; cbn [fst snd].
  - intros m. by rewrite Hk.
  - unfold entering. apply Forall_replicate. by split.
Qed.
End Racing.

(** * The specification's claims *)

(** C1.  In a process that starts with an empty cache, the first call of
    [get k] starts the construction routine for [k] exactly once; if it
    returns the instance [m], then however the process goes on, every later
    [get k] returns that same [m] and the routine is never started for [k]
    again.  With the counting routine, three calls of [get "en"] leave the
    counter at 1 and return one and the same marker. *)
Theorem get_constructs_once :
  (∀ `{lib : Spacy} (r : runtime) (before after : list string) (k : string),
     let w0 := (run_gets before (fresh r)).1 in
     let w1 := (SpacyMagic.get k w0).1 in
     let rest := run_gets after w1 in
     k ∉ before →
     invocations k (loads w0) = 0 ∧
     invocations k (loads w1) = 1 ∧
     ∀ m, (SpacyMagic.get k w0).2 = inr m →
          invocations k (loads rest.1) = 1 ∧
          (∀ res, (k, res) ∈ rest.2 → res = inr m) ∧
          SpacyMagic.get k rest.1 = (rest.1, inr m)) ∧
  (let c :=
     run_gets (lib := counting) ["en"; "en"; "en"] (fresh (lib := counting) 0) in
   let en := {| serial_no := 0; tag := "en" |} in
   rt c.1 = 1 ∧
   c.2 = [("en", inr en); ("en", inr en); ("en", inr en)]).
Proof.
  split; [| by vm_compute].
  intros lib r before after k w0 w1 rest Hfirst.
  destruct (run_gets_untouched before (fresh r) k Hfirst) as [Hk Hn].
  fold w0 in Hk, Hn. simpl in Hk. rewrite lookup_empty in Hk.
  change (invocations k (loads w0) = 0) in Hn.
  destruct (get_miss_invocations w0 k Hk) as [Hone _]. fold w1 in Hone.
  rewrite Hn in Hone.
  split_and!; [done.. |].
  intros m Hm. apply get_returns_cached in Hm. fold w1 in Hm.
  destruct (run_gets_cached after w1 k m Hm) as (Hc & Hi & Hr).
  fold rest in Hc, Hi, Hr.
  split_and!; [congruence | done | by apply get_hit].
Qed.

Lemma get_constructs_once_witness :
  let w0 := (run_gets (lib := counting) ["fr"] (fresh (lib := counting) 0)).1 in
  let w1 := (SpacyMagic.get (lib := counting) "en" w0).1 in
  let rest := run_gets (lib := counting) ["fr"; "en"; "xx"; "en"] w1 in
  let en := {| serial_no := 1; tag := "en" |} in
  ("en" ∉ ["fr"]) ∧
  (SpacyMagic.get (lib := counting) "en" w0).2 = inr en ∧
  invocations (lib := counting) "en" (loads rest.1) = 1 ∧
  SpacyMagic.get (lib := counting) "en" rest.1 = (rest.1, inr en).
Proof.
  intros w0 w1 rest en.
  assert (Hfirst : "en" ∉ ["fr"])
    by (refine (bool_decide_unpack _ _); vm_compute; exact I).
  destruct get_constructs_once as [Hgen _].
  destruct (Hgen counting 0 ["fr"] ["fr"; "en"; "xx"; "en"] "en" Hfirst)
    as (_ & _ & Hlater).
  destruct (Hlater en eq_refl) as (Hi & _ & Hg).
  split_and!; [exact Hfirst | reflexivity | exact Hi | exact Hg].
Defined.

(** C2.  When the construction routine raises for [k], [get k] raises the
    same failure, the cache is exactly what it was before the call, with no
    entry for [k], and the next [get k] starts the routine again. *)
Theorem get_failure_not_cached `{lib : Spacy} (w : World) (k : string)
    (r' : runtime) (e : failure) :
  _spacys w !! k = None →
  spacy_load k (rt w) = (r', inl e) →
  let w' := (SpacyMagic.get k w).1 in
  (SpacyMagic.get k w).2 = inl (Raised e) ∧
  _spacys w' = _spacys w ∧
  _spacys w' !! k = None ∧
  loads w' = loads w ++ [(k, inl e)] ∧
  loads (SpacyMagic.get k w').1 =
    loads w' ++ [(k, (spacy_load k (rt w')).2)].
Proof.
  intros Hk Hl w'.
  assert (Hw' : _spacys w' = _spacys w)
    by (subst w'; by rewrite (get_miss_raise w k r' e)).
  split_and!.
  - by rewrite (get_miss_raise w k r' e).
  - done.
  - by rewrite Hw'.
  - subst w'. by rewrite (get_miss_raise w k r' e).
  - apply get_miss_loads. by rewrite Hw'.
Qed.

Lemma get_failure_not_cached_witness :
  let w := fresh (lib := counting) 0 in
  let w' := (SpacyMagic.get (lib := counting) "xx" w).1 in
  (SpacyMagic.get (lib := counting) "xx" w).2 =
    inl (Raised (lib := counting) (OSError "xx")) ∧
  _spacys w' = ∅ ∧
  loads (SpacyMagic.get (lib := counting) "xx" w').1 =
    [("xx", inl (OSError "xx")); ("xx", inl (OSError "xx"))].
Proof.
  intros w w'.
  destruct (get_failure_not_cached (lib := counting) w "xx" 1 (OSError "xx")
              eq_refl eq_refl)
    as (Hr & Hc & _ & Hl & Hretry).
  split_and!; [exact Hr | exact Hc |].
  fold w' in Hl, Hretry. rewrite Hretry, Hl. reflexivity.
Defined.

(** C3, as the specification states it, fails.  Two threads enter
    [get "en"] on an empty cache; the second makes its membership test
    before the first has stored anything.  Both then construct: the routine
    runs twice and the two callers are handed different instances. *)
Lemma racing_gets_construct_twice :
  let w0 := fresh (lib := counting) 0 in
  let c :=
    run_sched (lib := counting) [0; 1; 0; 0; 0; 1; 1; 1] (w0, entering 2 "en") in
  _spacys w0 !! "en" = None ∧
  c.2 = [("en", Done (lib := counting) (inr {| serial_no := 0; tag := "en" |}));
         ("en", Done (lib := counting) (inr {| serial_no := 1; tag := "en" |}))] ∧
  loads c.1 = [("en", inr {| serial_no := 0; tag := "en" |});
               ("en", inr {| serial_no := 1; tag := "en" |})] ∧
  ¬ constructs_once w0 c.
Proof.
  intros w0 c. split_and!; [by vm_compute.. |].
  intros [Hlen _]. vm_compute in Hlen. discriminate.
Qed.

(** C3, amended.  [get] takes no lock.  When the calls of the threads do not
    overlap, each running its check, construction, store and return before
    the next starts, and the construction succeeds, exactly one construction
    takes place and every caller receives the same instance.  Under every
    schedule, whatever a caller receives is an instance that a finished
    construction for [k] returned. *)
Theorem nonoverlapping_gets_construct_once `{lib : Spacy} (w : World) (k : string)
    (n : nat) :
  _spacys w !! k = None →
  (∀ r' m,
     0 < n →
     spacy_load k (rt w) = (r', inr m) →
     let c := run_sched (serial n) (w, entering n k) in
     constructs_once w c ∧
     loads c.1 = loads w ++ [(k, inr m)] ∧
     c.2 = replicate n (k, Done (inr m))) ∧
  (∀ sch t m,
     let c := run_sched sch (w, entering n k) in
     t ∈ c.2 → returned t = Some m → (k, inr m) ∈ loads c.1).
Proof.
  intros Hk. split.
  - intros r' m Hn Hl c. destruct n as [|n]; [lia|].
    subst c. rewrite (serial_miss n w k r' m Hk Hl). cbn [fst snd].
    split_and!; [| done..].
    split; cbn [fst snd loads].
    + rewrite length_app. simpl. lia.
    + exists m. by apply Forall_replicate.
  - intros sch t m c Ht Hm.
    destruct (sound_for_run k sch _ (sound_for_entering k n w Hk)) as [_ Hall].
    fold c in Hall.
    destruct (proj1 (Forall_forall _ _) Hall t Ht) as [Hkey Hb].
    unfold returned in Hm. unfold holds_built in Hb. rewrite Hkey in Hb.
    destruct t.2 as [| | | |[e|m']]; try done. by simplify_eq.
Qed.

Lemma nonoverlapping_gets_construct_once_witness :
  let w := fresh (lib := counting) 0 in
  let c := run_sched (lib := counting) (serial 3) (w, entering 3 "en") in
  let race :=
    run_sched (lib := counting) [0; 1; 0; 0; 0; 1; 1; 1] (w, entering 2 "en") in
  let en := {| serial_no := 0; tag := "en" |} in
  let en' := {| serial_no := 1; tag := "en" |} in
  _spacys w !! "en" = None ∧
  0 < 3 ∧
  constructs_once w c ∧
  loads c.1 = [("en", inr en)] ∧
  c.2 = replicate 3 ("en", Done (lib := counting) (inr en)) ∧
  ("en", Done (lib := counting) (inr en')) ∈ race.2 ∧
  ("en", inr en') ∈ loads race.1.
Proof.
  intros w c race en en'.
  destruct (nonoverlapping_gets_construct_once (lib := counting) w "en" 3 eq_refl)
    as [Hserial _].
  destruct (Hserial 1 en ltac:(lia) eq_refl) as (Honce & Hl & Hc).
  destruct (nonoverlapping_gets_construct_once (lib := counting) w "en" 2 eq_refl)
    as [_ Hany].
  assert (Hin : ("en", Done (lib := counting) (inr en')) ∈ race.2)
    by exact (list_elem_of_lookup_2 race.2 1 _ eq_refl).
  split_and!; [reflexivity | lia | exact Honce | exact Hl | exact Hc | exact Hin |].
  exact (Hany [0; 1; 0; 0; 0; 1; 1; 1] _ en' Hin eq_refl).
Defined.

(** C4.  For two distinct keys, a call of [get] for one leaves the entry of
    the other as it was, and when neither is cached each is built by its own
    call of the routine on its own key.  With the counting routine,
    [get "en"] then [get "fr"] leaves the counter at 2 and returns two
    different markers, tagged ["en"] and ["fr"]. *)
Theorem get_keys_independent :
  (∀ `{lib : Spacy} (w : World) (k1 k2 : string),
     k1 ≠ k2 →
     _spacys (SpacyMagic.get k1 w).1 !! k2 = _spacys w !! k2 ∧
     ∀ r1 m1 r2 m2,
       _spacys w !! k1 = None →
       _spacys w !! k2 = None →
       spacy_load k1 (rt w) = (r1, inr m1) →
       spacy_load k2 r1 = (r2, inr m2) →
       run_gets [k1; k2] w =
         ({| _spacys := <[k2 := m2]> (<[k1 := m1]> (_spacys w)); rt := r2;
             loads := loads w ++ [(k1, inr m1); (k2, inr m2)] |},
          [(k1, inr m1); (k2, inr m2)])) ∧
  (let c := run_gets (lib := counting) ["en"; "fr"] (fresh (lib := counting) 0) in
   let en := {| serial_no := 0; tag := "en" |} in
   let fr := {| serial_no := 1; tag := "fr" |} in
   rt c.1 = 2 ∧
   c.2 = [("en", inr en); ("fr", inr fr)] ∧
   en ≠ fr ∧
   _spacys c.1 !! "en" = Some en ∧
   _spacys c.1 !! "fr" = Some fr).
Proof.
  split; [| by vm_compute].
  intros lib w k1 k2 Hne. split; [by apply get_frame |].
  intros r1 m1 r2 m2 Hk1 Hk2 Hl1 Hl2.
  rewrite !run_gets_cons. rewrite (get_miss_ok w k1 r1 m1 Hk1 Hl1). simpl.
  rewrite (get_miss_ok _ k2 r2 m2); simpl;
    [| by rewrite lookup_insert_ne | done].
  by rewrite <- app_assoc.
Qed.

Lemma get_keys_independent_witness :
  let w := fresh (lib := counting) 0 in
  let en := {| serial_no := 0; tag := "en" |} in
  let fr := {| serial_no := 1; tag := "fr" |} in
  "en" ≠ "fr" ∧
  _spacys (SpacyMagic.get (lib := counting) "en" w).1 !! "fr" = None ∧
  run_gets (lib := counting) ["en"; "fr"] w =
    (@mkWorld counting (<["fr" := fr]> {["en" := en]}) 2
       [("en", inr en); ("fr", inr fr)],
     [("en", inr en); ("fr", inr fr)]).
Proof.
  intros w en fr.
  assert (Hne : "en" ≠ "fr") by discriminate.
  destruct get_keys_independent as [Hgen _].
  destruct (Hgen counting w "en" "fr" Hne) as [Hframe Hboth].
  split_and!; [exact Hne | exact Hframe |].
  exact (Hboth 1 en 2 fr eq_refl eq_refl eq_refl eq_refl).
Defined.

(** C5.  When no entry exists for [k], [get k] applies the construction
    routine to [k] itself, stores what it built under [k] and returns it;
    when an entry exists, [get k] returns it, the routine is not called and
    nothing changes. *)
Theorem get_constructs_or_reuses `{lib : Spacy} (w : World) (k : string) :
  (∀ r' m,
     _spacys w !! k = None →
     spacy_load k (rt w) = (r', inr m) →
     SpacyMagic.get k w =
       ({| _spacys := <[k := m]> (_spacys w); rt := r';
           loads := loads w ++ [(k, inr m)] |}, inr m)) ∧
  (∀ m,
     _spacys w !! k = Some m →
     SpacyMagic.get k w = (w, inr m)).
Proof.
  split.
  - intros r' m Hk Hl. by apply get_miss_ok.
  - intros m Hk. by apply get_hit.
Qed.

Lemma get_constructs_or_reuses_witness :
  let w := fresh (lib := counting) 0 in
  let en := {| serial_no := 0; tag := "en" |} in
  SpacyMagic.get (lib := counting) "en" w =
    (@mkWorld counting {["en" := en]} 1 [("en", inr en)], inr en) ∧
  SpacyMagic.get (lib := counting) "en" (SpacyMagic.get (lib := counting) "en" w).1 =
    ((SpacyMagic.get (lib := counting) "en" w).1, inr en).
Proof.
  intros w en.
  destruct (get_constructs_or_reuses (lib := counting) w "en") as [Hmiss _].
  specialize (Hmiss 1 en eq_refl eq_refl).
  split; [exact Hmiss |].
  destruct (get_constructs_or_reuses (lib := counting)
              (SpacyMagic.get (lib := counting) "en" w).1 "en") as [_ Hhit].
  apply Hhit. rewrite Hmiss. reflexivity.
Defined.

(** C6.  A cached key stays cached: after a [get k] that returned [m], no
    sequence of further calls removes or replaces the entry of [k], and every
    later [get k] returns [m]. *)
Theorem cached_is_terminal `{lib : Spacy} (w : World) (k : string) (m : model)
    (later : list string) :
  (SpacyMagic.get k w).2 = inr m →
  let w1 := (SpacyMagic.get k w).1 in
  let rest := run_gets later w1 in
  _spacys w1 !! k = Some m ∧
  _spacys rest.1 !! k = Some m ∧
  (∀ res, (k, res) ∈ rest.2 → res = inr m) ∧
  SpacyMagic.get k rest.1 = (rest.1, inr m).
Proof.
  intros Hm w1 rest. apply get_returns_cached in Hm. fold w1 in Hm.
  destruct (run_gets_cached later w1 k m Hm) as (Hc & _ & Hr).
  fold rest in Hc, Hr.
  split_and!; [done.. | by apply get_hit].
Qed.

Lemma cached_is_terminal_witness :
  let w := fresh (lib := counting) 0 in
  let w1 := (SpacyMagic.get (lib := counting) "en" w).1 in
  let rest := run_gets (lib := counting) ["fr"; "xx"; "en"; "fr"] w1 in
  let en := {| serial_no := 0; tag := "en" |} in
  (SpacyMagic.get (lib := counting) "en" w).2 = inr en ∧
  _spacys rest.1 !! "en" = Some en ∧
  SpacyMagic.get (lib := counting) "en" rest.1 = (rest.1, inr en).
Proof.
  intros w w1 rest en.
  destruct (cached_is_terminal (lib := counting) w "en" en
              ["fr"; "xx"; "en"; "fr"] eq_refl)
    as (_ & Hc & _ & Hg).
  split_and!; [reflexivity | exact Hc | exact Hg].
Defined.

(** C7.  Entries are created lazily: a new process has an empty cache, a key
    has no entry as long as [get] was not called on it, and after any
    sequence of calls the keys of the cache are exactly those for which a
    call of [get] returned. *)
Theorem cache_filled_lazily `{lib : Spacy} (r : runtime) (ks : list string) :
  let c := run_gets ks (fresh r) in
  _spacys (fresh r) = ∅ ∧
  (∀ k, k ∉ ks → _spacys c.1 !! k = None) ∧
  dom (_spacys c.1) = succeeded c.2.
Proof.
  intros c. split_and!; [done | |].
  - intros k Hk. subst c.
    destruct (run_gets_untouched ks (fresh r) k Hk) as [-> _].
    apply lookup_empty.
  - subst c. rewrite run_gets_dom. simpl. rewrite dom_empty_L.
    by rewrite (left_id_L ∅ (∪)).
Qed.

Lemma cache_filled_lazily_witness :
  let c :=
    run_gets (lib := counting) ["en"; "xx"; "en"] (fresh (lib := counting) 0) in
  ("fr" ∉ ["en"; "xx"; "en"]) ∧
  _spacys c.1 !! "fr" = None ∧
  dom (_spacys c.1) = {["en"]}.
Proof.
  intros c.
  assert (Hfr : "fr" ∉ ["en"; "xx"; "en"])
    by (refine (bool_decide_unpack _ _); vm_compute; exact I).
  destruct (cache_filled_lazily (lib := counting) 0 ["en"; "xx"; "en"])
    as (_ & Hnone & Hdom).
  split_and!; [exact Hfr | exact (Hnone "fr" Hfr) |].
  fold c in Hdom. rewrite Hdom. by vm_compute.
Defined.

(** C8.  On a hit [get] is idempotent: when [k] is cached, [get k] returns
    the stored instance and changes nothing at all, so two calls in a row
    end in the state, and with the results, of one. *)
Theorem get_idempotent_on_hit `{lib : Spacy} (w : World) (k : string)
    (m : model) :
  _spacys w !! k = Some m →
  SpacyMagic.get k w = (w, inr m) ∧
  SpacyMagic.get k (SpacyMagic.get k w).1 = SpacyMagic.get k w ∧
  run_gets [k; k] w = ((SpacyMagic.get k w).1,
                       [(k, (SpacyMagic.get k w).2); (k, (SpacyMagic.get k w).2)]).
Proof.
  intros Hk. pose proof (get_hit w k m Hk) as Hg.
  split_and!; [done | rewrite Hg; simpl; by rewrite Hg |].
  rewrite !run_gets_cons. simpl. rewrite Hg. simpl. by rewrite Hg.
Qed.

Lemma get_idempotent_on_hit_witness :
  let w := (SpacyMagic.get (lib := counting) "en" (fresh (lib := counting) 0)).1 in
  let en := {| serial_no := 0; tag := "en" |} in
  _spacys w !! "en" = Some en ∧
  SpacyMagic.get (lib := counting) "en" w = (w, inr en).
Proof.
  intros w en.
  destruct (get_idempotent_on_hit (lib := counting) w "en" en eq_refl)
    as (Hg & _ & _).
  split; [reflexivity | exact Hg].
Defined.




(** C10.  [split_sentences_impl] obtains its model with [get "en"] and no
    other key: a call is [get "en"] followed, when that returns, by the
    library applied to the very model it returned, and the exception of
    [get "en"] otherwise; in a new process whose construction of ["en"]
    succeeds, the first call builds the model, caches it and splits with it.
    So in a process that only runs [split_sentences_impl], whatever the
    texts, the cache never holds a key other than ["en"], no construction is
    started for another key, and at most one model is ever built: the
    history consists of constructions that raised, followed, once the model
    is cached, by the single construction that built it. *)
Theorem split_sentences_single_model `{lib : Spacy} (r : runtime)
    (ss : list string) :
  let w := (run_splits ss (fresh r)).1 in
  (∀ s w0,
     split_sentences_impl s w0 =
       match (SpacyMagic.get "en" w0).2 with
       | inr english => call_sents english s (SpacyMagic.get "en" w0).1
       | inl e => ((SpacyMagic.get "en" w0).1, inl e)
       end) ∧
  (∀ s w0,
     _spacys (split_sentences_impl s w0).1 = _spacys (SpacyMagic.get "en" w0).1 ∧
     loads (split_sentences_impl s w0).1 = loads (SpacyMagic.get "en" w0).1) ∧
  (∀ s r' english,
     spacy_load "en" r = (r', inr english) →
     split_sentences_impl s (fresh r) =
       call_sents english s
         {| _spacys := {["en" := english]}; rt := r';
            loads := [("en", inr english)] |}) ∧
  dom (_spacys w) ⊆ {["en"]} ∧
  Forall (λ ev, ev.1 = "en") (loads w) ∧
  constructions (loads w) ≤ 1 ∧
  built_last w.
Proof.
  intros w. split_and!.
  - apply split_sentences_impl_unfold.
  - intros s w0. rewrite split_sentences_impl_unfold.
    destruct ((SpacyMagic.get "en" w0).2) as [e|english]; [done|].
    apply call_sents_frame.
  - intros s r' english Hl. rewrite split_sentences_impl_unfold.
    by rewrite (get_miss_ok (fresh r) "en" r' english (lookup_empty _) Hl).
  - apply (run_splits_only_english ss (fresh r) (fresh_only_english r)).
  - apply (run_splits_only_english ss (fresh r) (fresh_only_english r)).
  - destruct (run_splits_only_english ss (fresh r) (fresh_only_english r))
      as (_ & _ & Hn).
    fold w in Hn. rewrite Hn. case_bool_decide; lia.
  - apply run_splits_built_last. exists []. by split; [apply Forall_nil |].
Qed.

Lemma split_sentences_single_model_witness :
  let en := {| serial_no := 0; tag := "en" |} in
  let warm := @mkWorld counting {["en" := en]} 1 [("en", inr en)] in
  spacy_load (Spacy := counting) "en" 0 = (1, inr en) ∧
  split_sentences_impl (lib := counting) "One. Two." (fresh (lib := counting) 0) =
    (warm, inr ["One. Two."]) ∧
  run_splits (lib := counting) ["One. Two."; "Three."] (fresh (lib := counting) 0) =
    (warm, [inr ["One. Two."]; inr ["Three."]]).
Proof.
  intros en warm.
  destruct (split_sentences_single_model (lib := counting) 0
              ["One. Two."; "Three."]) as (_ & _ & Hfirst & _).
  split_and!; [reflexivity | | by vm_compute].
  rewrite (Hfirst "One. Two." 1 en eq_refl). reflexivity.
Defined.

(** * Further properties of the notebook's code *)

Section MoreGet.
Context `{lib : Spacy}.
Implicit Types (w : World) (k lang : string) (m : model).

Lemma built_for_snoc k (evs : list load_event) ev :
  built_for k (evs ++ [ev]) =
    built_for k evs ++
    (if decide (ev.1 = k ∧ is_built ev = true) then [ev] else []).
Proof.
  unfold built_for. by rewrite filter_app.
Qed.

(** The successful constructions of every key are those the cache shows. *)
Lemma get_built_for w k :
  (∀ k', built_for k' (loads w) =
           match _spacys w !! k' with Some m => [(k', inr m)] | None => [] end) →
  ∀ k', built_for k' (loads (SpacyMagic.get k w).1) =
          match _spacys (SpacyMagic.get k w).1 !! k' with
          | Some m => [(k', inr m)]
          | None => []
          end.
Proof.
  intros Hw k'.
  destruct (get_cases w k)
    as [(m & Hc & ->)|[(r' & m & Hc & _ & ->)|(r' & e & Hc & _ & ->)]];
    simpl; [done | |].
  - rewrite built_for_snoc, Hw. simpl.
    destruct (decide (k = k')) as [<-|Hne].
    + rewrite lookup_insert_eq, Hc. by rewrite decide_True.
    + rewrite lookup_insert_ne by done.
      rewrite decide_False by (intros [? _]; done).
      by rewrite app_nil_r.
  - rewrite built_for_snoc, Hw. simpl.
    rewrite decide_False by (intros [_ ?]; done).
    by rewrite app_nil_r.
Qed.

Lemma run_gets_built_for ks : ∀ w,
  (∀ k', built_for k' (loads w) =
           match _spacys w !! k' with Some m => [(k', inr m)] | None => [] end) →
  ∀ k', built_for k' (loads (run_gets ks w).1) =
          match _spacys (run_gets ks w).1 !! k' with
          | Some m => [(k', inr m)]
          | None => []
          end.
Proof.
  induction ks as [|k ks IH]; intros w Hw; [done|].
  rewrite run_gets_cons. simpl. by apply IH, get_built_for.
Qed.

(** What one call adds to the history: nothing, or one event for its key. *)
Lemma get_loads_grow w k :
  ∃ evs, loads (SpacyMagic.get k w).1 = loads w ++ evs ∧
         Forall (λ ev, ev.1 = k) evs ∧ length evs ≤ 1.
Proof.
  destruct (get_cases w k)
    as [(m & Hc & ->)|[(r' & m & Hc & _ & ->)|(r' & e & Hc & _ & ->)]]; simpl.
  - exists []. rewrite app_nil_r.
    split_and!; [done | by apply Forall_nil | simpl; lia].
  - eexists. split_and!; [done | by apply Forall_singleton | simpl; lia].
  - eexists. split_and!; [done | by apply Forall_singleton | simpl; lia].
Qed.
End MoreGet.

(** X1.  [get] raises nothing of its own: whenever [get k] raises, the key
    was not cached, the exception is the one [spacy.load k] raised, and the
    cache is left as it was.  In particular the final subscript never raises
    [KeyError]. *)
Theorem get_raises_only_load_failure `{lib : Spacy} (w : World) (k : string)
    (x : exn) :
  (SpacyMagic.get k w).2 = inl x →
  ∃ e, x = Raised e ∧
       _spacys w !! k = None ∧
       (spacy_load k (rt w)).2 = inl e ∧
       _spacys (SpacyMagic.get k w).1 = _spacys w.
Proof.
  destruct (get_cases w k)
    as [(m & Hc & ->)|[(r' & m & Hc & _ & ->)|(r' & e & Hc & Hl & ->)]];
    simpl; intros Hx; [done.. |].
  exists e. injection Hx as <-. by rewrite Hl.
Qed.

Lemma get_raises_only_load_failure_witness :
  let w := (SpacyMagic.get (lib := counting) "en" (fresh (lib := counting) 0)).1 in
  (SpacyMagic.get (lib := counting) "xx" w).2 =
    inl (Raised (lib := counting) (OSError "xx")) ∧
  _spacys w !! "xx" = None ∧
  _spacys (SpacyMagic.get (lib := counting) "xx" w).1 = _spacys w.
Proof.
  intros w.
  destruct (get_raises_only_load_failure (lib := counting) w "xx" _ eq_refl)
    as (e & _ & Hk & _ & Hc).
  split_and!; [reflexivity | exact Hk | exact Hc].
Defined.

(** X2.  In a process that starts with an empty cache, after any sequence of
    [get] calls and for every key, the constructions of that key that
    yielded a model are exactly one, that of the cached instance, when the
    key is cached, and none when it is not: no model is ever built twice for
    a key, and none is built and then dropped. *)
Theorem built_once_per_key `{lib : Spacy} (r : runtime) (ks : list string)
    (k : string) :
  let w := (run_gets ks (fresh r)).1 in
  built_for k (loads w) =
    match _spacys w !! k with
    | Some m => [(k, inr m)]
    | None => []
    end.
Proof.
  intros w. subst w. apply run_gets_built_for.
  intros k'. simpl. by rewrite lookup_empty.
Qed.

(** X3.  A sequence of [get] calls only appends to the history of
    constructions, at most one construction per call, and only for keys that
    were asked for. *)
Theorem run_gets_constructs_requested `{lib : Spacy} (w : World)
    (ks : list string) :
  ∃ evs, loads (run_gets ks w).1 = loads w ++ evs ∧
         Forall (λ ev, ev.1 ∈ ks) evs ∧
         length evs ≤ length ks.
Proof.
  revert w. induction ks as [|k ks IH]; intros w.
  - exists []. simpl. rewrite app_nil_r.
    split_and!; [done | by apply Forall_nil | lia].
  - rewrite run_gets_cons. simpl.
    destruct (get_loads_grow w k) as (evs1 & Hl1 & Hk1 & Hn1).
    destruct (IH (SpacyMagic.get k w).1) as (evs2 & Hl2 & Hk2 & Hn2).
    exists (evs1 ++ evs2). rewrite Hl2, Hl1, <- app_assoc.
    split_and!; [done | | rewrite length_app; simpl; lia].
    apply Forall_app; split.
    + eapply Forall_impl; [exact Hk1 |]. intros ev ->. apply elem_of_cons. by left.
    + eapply Forall_impl; [exact Hk2 |]. intros ev Hev. apply elem_of_cons. by right.
Qed.

Section MoreSplitter.
Context `{lib : Spacy}.
Implicit Types (w : World) (s : string).

(** With the model cached, a call is the library's own splitting. *)
Lemma split_sentences_impl_hit s w (english : model) :
  _spacys w !! "en" = Some english →
  split_sentences_impl s w = call_sents english s w.
Proof.
  intros Hc. rewrite split_sentences_impl_unfold.
  by rewrite (get_hit w "en" english Hc).
Qed.

Lemma run_sents_frame (english : model) ss : ∀ w,
  _spacys (run_sents english ss w).1 = _spacys w ∧
  loads (run_sents english ss w).1 = loads w.
Proof.
  induction ss as [|s ss IH]; intros w; [done|].
  simpl. destruct (call_sents_frame english s w) as [Hc Hl].
  destruct (call_sents english s w) as [w1 r]. simpl in Hc, Hl.
  destruct (IH w1) as [Hc' Hl']. destruct (run_sents english ss w1). simpl in *.
  split; congruence.
Qed.

Lemma run_splits_hit (english : model) ss : ∀ w,
  _spacys w !! "en" = Some english →
  run_splits ss w = run_sents english ss w.
Proof.
  induction ss as [|s ss IH]; intros w Hc; [done|].
  simpl. rewrite (split_sentences_impl_hit s w english Hc).
  destruct (call_sents_frame english s w) as [Hc1 _].
  destruct (call_sents english s w) as [w1 r]. simpl in Hc1.
  rewrite IH; [done | by rewrite Hc1].
Qed.
End MoreSplitter.

(** X4.  Once the English model is cached, [split_sentences_impl] is the
    library's sentence splitting with that one model: whatever the texts,
    and whether or not splitting raises on some of them, every call uses the
    cached instance, the cache stays as it is and no construction is
    started. *)
Theorem split_sentences_warm `{lib : Spacy} (w : World) (english : model)
    (ss : list string) :
  _spacys w !! "en" = Some english →
  run_splits ss w = run_sents english ss w ∧
  _spacys (run_splits ss w).1 = _spacys w ∧
  loads (run_splits ss w).1 = loads w.
Proof.
  intros Hc. rewrite (run_splits_hit english ss w Hc).
  split; [done | apply run_sents_frame].
Qed.

Lemma split_sentences_warm_witness :
  let w := (SpacyMagic.get (lib := counting) "en" (fresh (lib := counting) 0)).1 in
  let en := {| serial_no := 0; tag := "en" |} in
  _spacys w !! "en" = Some en ∧
  run_splits (lib := counting) ["One. Two."; ""; "Three."] w =
    (w, [inr ["One. Two."]; inr [""]; inr ["Three."]]).
Proof.
  intros w en.
  destruct (split_sentences_warm (lib := counting) w en ["One. Two."; ""; "Three."]
              eq_refl) as (Hrun & _ & _).
  split; [reflexivity |]. rewrite Hrun. reflexivity.
Defined.

(** X5.  [split_sentences_impl] raises in two ways only.  Either the model
    was not cached and its construction raised: then the same exception
    comes out, the library was not asked to split anything, and the cache is
    unchanged.  Or the model was obtained and the splitting itself raised:
    then the model stays cached for the next call. *)
Theorem split_sentences_failures `{lib : Spacy} (w : World) (s : string)
    (x : exn) :
  (split_sentences_impl s w).2 = inl x →
  let w' := (split_sentences_impl s w).1 in
  (∃ e, x = Raised e ∧
        _spacys w !! "en" = None ∧
        spacy_load "en" (rt w) = (rt w', inl e) ∧
        _spacys w' = _spacys w) ∨
  (∃ english e, x = Raised e ∧
        (SpacyMagic.get "en" w).2 = inr english ∧
        (sents english s (rt (SpacyMagic.get "en" w).1)).2 = inl e ∧
        _spacys w' !! "en" = Some english).
Proof.
  rewrite split_sentences_impl_unfold.
  destruct (get_cases w "en")
    as [(m & Hc & Hg)|[(r' & m & Hc & Hl & Hg)|(r' & e & Hc & Hl & Hg)]];
    rewrite Hg; simpl.
  3:{ intros [= <-]. left. exists e. by rewrite Hl. }
  all: unfold call_sents; simpl.
  all: destruct (sents m s _) as [r2 [e|l]] eqn:Hs; simpl; [|done].
  all: intros [= <-]; right; exists m, e; split_and!; simpl; try done.
  all: try (by rewrite Hs).
  by rewrite lookup_insert_eq.
Qed.

Lemma split_sentences_failures_witness :
  let w := fresh (lib := bare) 7 in
  let w' := (split_sentences_impl (lib := bare) "One. Two." w).1 in
  (split_sentences_impl (lib := bare) "One. Two." w).2 =
    inl (Raised (lib := bare) (OSError "en")) ∧
  rt w' = 8 ∧
  _spacys w' = ∅.
Proof.
  intros w w'.
  destruct (split_sentences_failures (lib := bare) w "One. Two." _ eq_refl)
    as [(e & _ & _ & _ & Hc)|(english & e & _ & Hg & _)].
  - split_and!; [reflexivity | reflexivity | exact Hc].
  - discriminate Hg.
Defined.

Section MoreRacing.
Context `{lib : Spacy}.
Implicit Types (w : World) (k lang : string) (pl : list (string * pc)) (p : pc).

(** *** Warm cache *)

Lemma on_hit_path_step w k m p :
  _spacys w !! k = Some m →
  on_hit_path m (k, p) →
  (step k p w).1 = w ∧ on_hit_path m (k, (step k p w).2).
Proof.
  unfold on_hit_path. cbn [snd]. intros Hc [-> | [-> | ->] ]; cbn [step].
  - unfold contains. cbn [fst snd].
    rewrite bool_decide_eq_true_2 by (apply elem_of_dom; eauto).
    split; [done | by right; left].
  - unfold getitem. rewrite Hc. cbn [fst snd]. split; [done | by right; right].
  - split; [done | by right; right].
Qed.

Lemma warm_sched_step w k m i pl :
  _spacys w !! k = Some m →
  Forall (λ t, t.1 = k ∧ on_hit_path m t) pl →
  (sched_step i (w, pl)).1 = w ∧
  Forall (λ t, t.1 = k ∧ on_hit_path m t) (sched_step i (w, pl)).2.
Proof.
  intros Hc Hpl.
  destruct (pl !! i) as [[lang p]|] eqn:Hi;
    [| unfold sched_step; cbn [fst snd]; by rewrite Hi].
  rewrite (sched_step_at i w pl lang p Hi). cbn [fst snd].
  destruct (Forall_lookup_1 _ _ _ _ Hpl Hi) as [Hlang Hp].
  cbn [fst] in Hlang. subst lang.
  destruct (on_hit_path_step w k m p Hc Hp) as [Hw Hp'].
  split; [done|]. apply Forall_insert; [done|]. by split.
Qed.

Lemma warm_run_sched k m sch : ∀ w pl,
  _spacys w !! k = Some m →
  Forall (λ t, t.1 = k ∧ on_hit_path m t) pl →
  (run_sched sch (w, pl)).1 = w ∧
  Forall (λ t, t.1 = k ∧ on_hit_path m t) (run_sched sch (w, pl)).2.
Proof.
  induction sch as [|i sch IH]; intros w pl Hc Hpl; [done|].
  rewrite run_sched_cons.
  destruct (warm_sched_step w k m i pl Hc Hpl) as [Hw Hpl'].
  destruct (sched_step i (w, pl)) as [w1 pl1]. cbn [fst snd] in Hw, Hpl'.
  subst w1. by apply IH.
Qed.

(** *** Counting constructions *)

Lemma filter_insert_length {A} (f : A → bool) (l : list A) : ∀ i x y,
  l !! i = Some x →
  length (filter (λ a, f a = true) (<[i := y]> l)) + Nat.b2n (f x) =
  length (filter (λ a, f a = true) l) + Nat.b2n (f y).
Proof.
  induction l as [|a l IH]; intros i x y Hi; [done|].
  destruct i as [|i]; cbn [insert list_insert].
  - injection Hi as ->. rewrite !filter_cons.
    destruct (f x), (f y); repeat case_decide; simpl; try done; lia.
  - specialize (IH i x y Hi). cbn [insert list_insert] in IH.
    rewrite !filter_cons. case_decide; simpl; [f_equal |]; exact IH.
Qed.

Lemma step_loads_budget lang p w :
  length (loads (step lang p w).1) +
    Nat.b2n (yet_to_load (lang, (step lang p w).2)) ≤
  length (loads w) + Nat.b2n (yet_to_load (lang, p)).
Proof.
  destruct p as [| |m| |r]; cbn [step].
  - unfold contains. cbn [fst snd]. destruct (negb _); simpl; lia.
  - unfold load. destruct (spacy_load lang (rt w)) as [r' [e|m]]; cbn [fst snd].
    all: simpl; rewrite length_app; simpl; lia.
  - simpl. lia.
  - unfold getitem. destruct (_spacys w !! lang); simpl; lia.
  - simpl. lia.
Qed.

Lemma sched_step_loads_budget i (c : World * list (string * pc)) :
  length (loads (sched_step i c).1) +
    length (filter (λ t, yet_to_load t = true) (sched_step i c).2) ≤
  length (loads c.1) + length (filter (λ t, yet_to_load t = true) c.2).
Proof.
  destruct c as [w pl]. cbn [fst snd].
  destruct (pl !! i) as [[lang p]|] eqn:Hi;
    [| unfold sched_step; cbn [fst snd]; by rewrite Hi].
  rewrite (sched_step_at i w pl lang p Hi). cbn [fst snd].
  pose proof (filter_insert_length yet_to_load pl i _ (lang, (step lang p w).2) Hi).
  pose proof (step_loads_budget lang p w). lia.
Qed.

Lemma run_sched_loads_budget sch : ∀ c : World * list (string * pc),
  length (loads (run_sched sch c).1) +
    length (filter (λ t, yet_to_load t = true) (run_sched sch c).2) ≤
  length (loads c.1) + length (filter (λ t, yet_to_load t = true) c.2).
Proof.
  induction sch as [|i sch IH]; intros c; [done|].
  rewrite run_sched_cons. etrans; [apply IH | apply sched_step_loads_budget].
Qed.

End MoreRacing.

(** X6.  On a cached key [get] is safe without a lock: when [k] is already
    cached with [m], however many threads call [get k] and however their
    statements interleave, the process state never changes (no construction,
    no store) and every thread that finishes returns [m]. *)
Theorem warm_gets_race_free `{lib : Spacy} (w : World) (k : string)
    (m : model) (n : nat) (sch : list nat) :
  _spacys w !! k = Some m →
  let c := run_sched sch (w, entering n k) in
  c.1 = w ∧
  ∀ t r, t ∈ c.2 → t.2 = Done r → r = inr m.
Proof.
  intros Hc c.
  destruct (warm_run_sched k m sch w (entering n k) Hc) as [Hw Hall].
  { unfold entering. apply Forall_replicate. split; [done | by left]. }
  fold c in Hw, Hall. split; [done|].
  intros t r Ht Hr.
  destruct (proj1 (Forall_forall _ _) Hall t Ht) as [_ [Hp|[Hp|Hp]]];
    rewrite Hp in Hr; by simplify_eq.
Qed.

Lemma warm_gets_race_free_witness :
  let w := (SpacyMagic.get (lib := counting) "en" (fresh (lib := counting) 0)).1 in
  let c :=
    run_sched (lib := counting) [0; 1; 0; 1; 2; 1; 0] (w, entering 3 "en") in
  let en := {| serial_no := 0; tag := "en" |} in
  _spacys w !! "en" = Some en ∧
  c.1 = w ∧
  c.2 !! 0 = Some ("en", Done (lib := counting) (inr en)).
Proof.
  intros w c en.
  destruct (warm_gets_race_free (lib := counting) w "en" en 3
              [0; 1; 0; 1; 2; 1; 0] eq_refl) as [Hw _].
  split_and!; [reflexivity | exact Hw | reflexivity].
Defined.

(** X7.  Under any schedule a thread calls [spacy.load] at most once per
    call of [get]: the history of constructions grows by no more than the
    number of threads that had not yet passed the call, so [n] threads
    entering [get] together cause at most [n] constructions. *)
Theorem constructions_bounded_by_threads `{lib : Spacy} (w : World)
    (sch : list nat) :
  (∀ pl : list (string * pc),
     length (loads (run_sched sch (w, pl)).1) ≤
       length (loads w) + length (filter (λ t, yet_to_load t = true) pl)) ∧
  (∀ n k,
     length (loads (run_sched sch (w, entering n k)).1) ≤ length (loads w) + n).
Proof.
  assert (Hgen : ∀ pl : list (string * pc),
     length (loads (run_sched sch (w, pl)).1) ≤
       length (loads w) + length (filter (λ t, yet_to_load t = true) pl)).
  { intros pl. pose proof (run_sched_loads_budget sch (w, pl)) as Hb.
    cbn [fst snd] in Hb. lia. }
  split; [exact Hgen |].
  intros n k. etrans; [apply Hgen |].
  apply Nat.add_le_mono_l. etrans; [apply length_filter |].
  unfold entering. by rewrite length_replicate.
Qed.

Section MoreVader.
Context `{va_lib : Vader}.
Implicit Types (result : gmap string score) (keys : list string).

(** [split] drops the whitespace around and between the words, and gives
    no word at all for a blank string. *)
Example str_split_blanks :
  str_split "  pos   neg " = ["pos"; "neg"] ∧ str_split "   " = [].
Proof. by vm_compute. Qed.

(** The four names come out of the [split] in the order they are written. *)
Lemma sentiment_fields_eq :
  sentiment_fields = ["pos"; "neg"; "neu"; "compound"].
Proof. by vm_compute. Qed.

(** The comprehension returns exactly when every key is there, with the
    values in the order of the keys. *)
Lemma subscripts_inr result keys : ∀ vs,
  subscripts result keys = inr vs ↔
  Forall2 (λ key v, result !! key = Some v) keys vs.
Proof.
  induction keys as [|key keys IH]; intros vs; simpl.
  - split.
    + intros [= <-]. constructor.
    + intros ->%Forall2_nil_inv_l. done.
  - destruct (result !! key) as [v|] eqn:Hkey.
    + destruct (subscripts result keys) as [e|vs'] eqn:Hsub.
      * split; [done|]. intros (v' & vs' & _ & Hrest & ->)%Forall2_cons_inv_l.
        by apply IH in Hrest.
      * split.
        -- intros [= <-]. constructor; [done | by apply IH].
        -- intros (v' & vs'' & Hv & Hrest & ->)%Forall2_cons_inv_l.
           apply IH in Hrest. by simplify_eq.
    + split; [done|]. intros (v' & vs' & Hv & _ & _)%Forall2_cons_inv_l.
      congruence.
Qed.

(** It raises exactly at the first key that is missing. *)
Lemma subscripts_inl result keys : ∀ x,
  subscripts result keys = inl x →
  ∃ pre key post,
    x = FieldKeyError key ∧ keys = pre ++ key :: post ∧
    result !! key = None ∧ Forall (λ k, is_Some (result !! k)) pre.
Proof.
  induction keys as [|key keys IH]; intros x; simpl; [done|].
  destruct (result !! key) as [v|] eqn:Hkey.
  - destruct (subscripts result keys) as [e|vs'] eqn:Hsub; [|done].
    intros [= <-].
    destruct (IH e eq_refl) as (pre & k' & post & -> & -> & Hk' & Hpre).
    exists (key :: pre), k', post. split_and!; [done.. |].
    by apply Forall_cons.
  - intros [= <-]. exists [], key, keys. split_and!; [done.. | by apply Forall_nil].
Qed.

(** A missing key raises whatever comes after it. *)
Lemma subscripts_missing result pre : ∀ key post,
  Forall (λ k, is_Some (result !! k)) pre →
  result !! key = None →
  subscripts result (pre ++ key :: post) = inl (FieldKeyError key).
Proof.
  induction pre as [|k pre IH]; intros key post Hpre Hkey; simpl.
  - by rewrite Hkey.
  - apply Forall_cons in Hpre as [[v Hv] Hpre].
    by rewrite Hv, (IH key post Hpre Hkey).
Qed.
End MoreVader.

(** X9.  What [vader_impl] returns lines up with the schema it is registered
    with: whenever it returns, it returns one score for every field of
    [sentiment_structure], in the order of the fields, each being the entry
    of the analyzer's dictionary under that field's name; whatever else the
    dictionary holds is ignored.  When the dictionary has the four scores,
    the result is [[pos, neg, neu, compound]]. *)
Theorem vader_impl_matches_structure `{va_lib : Vader} (s : string)
    (va va' : analyzer) (result : gmap string score) :
  polarity_scores s va = (va', inr result) →
  (∀ vs, (vader_impl s va).2 = inr vs →
         Forall2 (λ field v, result !! name field = Some v ∧
                             dataType field = FloatType)
           sentiment_structure vs) ∧
  (∀ pos neg neu compound,
     result !! "pos" = Some pos →
     result !! "neg" = Some neg →
     result !! "neu" = Some neu →
     result !! "compound" = Some compound →
     vader_impl s va = (va', inr [pos; neg; neu; compound])).
Proof.
  intros Hs. unfold vader_impl. rewrite Hs. cbn [fst snd]. split.
  - intros vs Hvs%subscripts_inr. unfold sentiment_structure.
    apply Forall2_fmap_l. eapply Forall2_impl; [exact Hvs |].
    by intros key v Hkey.
  - intros pos neg neu compound Hpos Hneg Hneu Hcompound.
    rewrite sentiment_fields_eq. simpl.
    by rewrite Hpos, Hneg, Hneu, Hcompound.
Qed.

Lemma vader_impl_matches_structure_witness :
  let result : gmap string Z :=
    <["neg" := 0%Z]> (<["neu" := 58%Z]> (<["pos" := 42%Z]>
      (<["compound" := 44%Z]> (<["words" := 3%Z]> ∅)))) in
  let va_lib := canned {["I like it" := result]} in
  polarity_scores (Vader := va_lib) "I like it" () = ((), inr result) ∧
  vader_impl (va_lib := va_lib) "I like it" () = ((), inr [42; 0; 58; 44]%Z) ∧
  length sentiment_structure = 4.
Proof.
  intros result va_lib.
  destruct (vader_impl_matches_structure (va_lib := va_lib) "I like it" () ()
              result eq_refl) as [_ Hfour].
  split_and!; [reflexivity | | reflexivity].
  exact (Hfour 42 0 58 44 eq_refl eq_refl eq_refl eq_refl)%Z.
Defined.

(** X10.  When the dictionary that [polarity_scores] returned lacks one of
    the four scores, [vader_impl] raises [KeyError] for the first of [pos],
    [neg], [neu], [compound], in that order, that is missing, the analyzer
    being left as [polarity_scores] left it; and a [KeyError] is all it can
    raise once [polarity_scores] has returned. *)
Theorem vader_impl_missing_field `{va_lib : Vader} (s : string)
    (va va' : analyzer) (result : gmap string score) :
  polarity_scores s va = (va', inr result) →
  (∀ pre key post,
     ["pos"; "neg"; "neu"; "compound"] = pre ++ key :: post →
     Forall (λ k, is_Some (result !! k)) pre →
     result !! key = None →
     vader_impl s va = (va', inl (FieldKeyError key))) ∧
  (∀ x, (vader_impl s va).2 = inl x →
     ∃ pre key post,
       x = FieldKeyError key ∧
       ["pos"; "neg"; "neu"; "compound"] = pre ++ key :: post ∧
       result !! key = None ∧
       Forall (λ k, is_Some (result !! k)) pre).
Proof.
  intros Hs. unfold vader_impl. rewrite Hs. cbn [fst snd].
  rewrite sentiment_fields_eq. split.
  - intros pre key post -> Hpre Hkey. by rewrite (subscripts_missing result).
  - intros x (pre & key & post & -> & Hfields & Hkey & Hpre)%subscripts_inl.
    by exists pre, key, post.
Qed.

Lemma vader_impl_missing_field_witness :
  let result : gmap string Z := <["neg" := 0%Z]> (<["pos" := 42%Z]> ∅) in
  let va_lib := canned {["I like it" := result]} in
  polarity_scores (Vader := va_lib) "I like it" () = ((), inr result) ∧
  ["pos"; "neg"; "neu"; "compound"] = ["pos"; "neg"] ++ "neu" :: ["compound"] ∧
  result !! "neu" = None ∧
  vader_impl (va_lib := va_lib) "I like it" () = ((), inl (FieldKeyError "neu")) ∧
  ∃ pre key post,
    FieldKeyError (va_lib := va_lib) "neu" = FieldKeyError key ∧
    ["pos"; "neg"; "neu"; "compound"] = pre ++ key :: post ∧
    result !! key = None ∧
    Forall (λ k, is_Some (result !! k)) pre.
Proof.
  intros result va_lib.
  destruct (vader_impl_missing_field (va_lib := va_lib) "I like it" () () result
              eq_refl) as [Hmiss Hraise].
  assert (Hpre : Forall (λ k, is_Some (result !! k)) ["pos"; "neg"]).
  { repeat constructor; by eexists. }
  pose proof (Hmiss ["pos"; "neg"] "neu" ["compound"] eq_refl Hpre eq_refl) as Hneu.
  split_and!; [reflexivity | reflexivity | reflexivity | exact Hneu |].
  apply Hraise. rewrite Hneu. reflexivity.
Defined.

(** X11.  A failure is never remembered: as long as a key has not become
    cached, every single call of [get] for it has started the construction
    routine anew, so the number of constructions started for the key has
    grown by the number of calls made for it. *)
Theorem uncached_key_retried_every_call `{lib : Spacy} (w : World)
    (ks : list string) (k : string) :
  _spacys (run_gets ks w).1 !! k = None →
  invocations k (loads (run_gets ks w).1) =
    invocations k (loads w) + length (filter (λ k', k' = k) ks).
Proof.
  revert w. induction ks as [|k' ks IH]; intros w Hk.
  - simpl. lia.
  - rewrite run_gets_cons in Hk |- *. cbn [fst] in Hk |- *.
    assert (Hk1 : _spacys (SpacyMagic.get k' w).1 !! k = None).
    { destruct (_spacys (SpacyMagic.get k' w).1 !! k) as [m|] eqn:Hm; [|done].
      destruct (run_gets_cached ks _ k m Hm) as [Hm' _]. congruence. }
    rewrite (IH _ Hk), filter_cons.
    destruct (decide (k' = k)) as [->|Hne].
    + assert (Hk0 : _spacys w !! k = None).
      { destruct (_spacys w !! k) as [m|] eqn:Hm; [|done].
        apply (get_keeps_entry w k k) in Hm. congruence. }
      destruct (get_miss_invocations w k Hk0) as [-> _]. simpl. lia.
    + rewrite (get_invocations_ne w k k') by done. lia.
Qed.

Lemma uncached_key_retried_every_call_witness :
  let w := fresh (lib := counting) 0 in
  let ks := ["xx"; "en"; "xx"; "xx"] in
  _spacys (run_gets (lib := counting) ks w).1 !! "xx" = None ∧
  invocations (lib := counting) "xx" (loads (run_gets (lib := counting) ks w).1) = 3.
Proof.
  intros w ks. split; [reflexivity |].
  exact (uncached_key_retried_every_call (lib := counting) w ks "xx" eq_refl).
Defined.
